(** * LinDB query stages: [query/stage/base_stage.go]

    A shallow embedding of [baseStage] and of the plan-node traversal it
    drives, together with the properties of the stage contract.

    Go code may return normally or panic, it may change the state of the
    objects it reaches, and it calls code this package does not own (the
    [Execute] method of a plan node, the two continuations, the pool).  The
    embedding threads an abstract world [W] through every call, keeps a log of
    the calls made to foreign code, and stops at the first panic. *)

From Stdlib Require Import List String Arith Lia ZArith.
Import ListNotations.

Set Implicit Arguments.

(** ** Values *)

(** A Go [error] value (non-nil); [option error] is a possibly-nil error. *)
Definition error := string.

(** The value carried by a panic. *)
Definition fault := string.

(** The way a Go call ends: it returns a value, or it panics. *)
Inductive Res (A : Type) : Type :=
| Ret (a : A)
| Panic (v : fault).
Arguments Panic {A} v.

(** [context.Context] and [concurrent.Pool] are references to shared objects;
    a stage only compares them with nil and hands them to [Submit]. *)
Definition Context := nat.
Definition Pool := nat.

(** [stage.Type] is an integer tag. *)
Definition StageType := Z.

(** The fields of [baseStage]; a nil interface value is [None]. *)
Record baseStage : Type := {
  ctx : option Context;
  stageType : StageType;
  execPool : option Pool
}.

(** Calls to foreign code, as they are logged. *)
Inductive Event : Type :=
| EvExec (id : nat) (r : Res (option error))  (* node [id] ran [Execute], which ended with [r] *)
| EvComplete                                    (* [completeHandle()] *)
| EvError (e : error).                          (* [errHandle(e)] *)

Section Model.

Context {W : Type}.

(** ** Computations *)

(** A computation over the world that logs events of type [E]. *)
Definition Go (E A : Type) : Type := W -> Res A * W * list E.

Definition ret {E A} (a : A) : Go E A := fun w => (Ret a, w, []).

Definition bind {E A B} (m : Go E A) (f : A -> Go E B) : Go E B := fun w =>
  match m w with
  | (Ret a, w1, t1) =>
      match f a w1 with
      | (r, w2, t2) => (r, w2, t1 ++ t2)
      end
  | (Panic v, w1, t1) => (Panic v, w1, t1)
  end.

(** ** Plan nodes *)

(** The [Execute] method of a plan node: opaque, stateful, fallible. *)
Definition NodeExec : Type := W -> Res (option error) * W.

(** A [PlanNode] interface value: nil, or an object with an identity, an
    [Execute] method and the slice its [Children] method returns. *)
#[local] Unset Elimination Schemes.
Inductive PlanNode : Type :=
| nilNode
| Node (id : nat) (Execute : NodeExec) (Children : list PlanNode).
#[local] Set Elimination Schemes.

(** The continuations a caller passes to [Execute]. *)
Definition CompleteHandle : Type := W -> Res unit * W.
Definition ErrHandle : Type := error -> W -> Res unit * W.

Definition callNode (id : nat) (ex : NodeExec) : Go Event (option error) := fun w =>
  let (r, w1) := ex w in (r, w1, [EvExec id r]).

Definition callComplete (completeHandle : CompleteHandle) : Go Event unit := fun w =>
  let (r, w1) := completeHandle w in (r, w1, [EvComplete]).

Definition callErr (errHandle : ErrHandle) (e : error) : Go Event unit := fun w =>
  let (r, w1) := errHandle e w in (r, w1, [EvError e]).

(** ** [baseStage.execute] *)

Fixpoint execute (stage : baseStage) (node : PlanNode) : Go Event (option error) :=
  match node with
  | nilNode => ret None
  | Node id ex children =>
      bind (callNode id ex) (fun err =>
        match err with
        | Some e => ret (Some e)
        | None =>
            (fix range (cs : list PlanNode) : Go Event (option error) :=
               match cs with
               | [] => ret None
               | c :: rest =>
                   bind (execute stage c) (fun err =>
                     match err with
                     | Some e => ret (Some e)
                     | None => range rest
                     end)
               end) children
        end)
  end.

(** What follows a step of the traversal: return the error, or go on with
    [k] after nil. *)
Definition andThen (k : Go Event (option error)) (err : option error) :
    Go Event (option error) :=
  match err with
  | Some e => ret (Some e)
  | None => k
  end.

(** The loop over [children], as a function of its own. *)
Definition executeChildren (stage : baseStage) : list PlanNode -> Go Event (option error) :=
  fix range (cs : list PlanNode) : Go Event (option error) :=
    match cs with
    | [] => ret None
    | c :: rest =>
        bind (execute stage c) (fun err =>
          match err with
          | Some e => ret (Some e)
          | None => range rest
          end)
    end.

(** ** The pool *)

(** Modelled from the spec: the [Task] of [internal/concurrent], which is not
    part of the sources at hand.  A task is an action and an
    error-continuation. *)
Record Task : Type := NewTask {
  action : Go Event unit;
  onError : ErrHandle
}.

(** What a stage call logs: foreign calls made on the calling thread, and
    submissions to a pool. *)
Inductive StageEvent : Type :=
| Inline (e : Event)
| Submitted (p : Pool) (c : Context) (t : Task).

Definition inline {A} (m : Go Event A) : Go StageEvent A := fun w =>
  match m w with
  | (r, w1, t) => (r, w1, map Inline t)
  end.

(** Modelled from the spec: [Pool.Submit] of [internal/concurrent].  It
    enqueues the task for asynchronous execution and returns. *)
Definition Submit (p : Pool) (c : Context) (t : Task) : Go StageEvent unit := fun w =>
  (Ret tt, w, [Submitted p c t]).

(** Modelled from the spec: the pool either accepts a submitted task or
    rejects it (saturation, cancelled context) with an error. *)
Inductive Admission : Type :=
| Accept
| Reject (e : error).

Section Worker.

(** The error a pool makes of a recovered panic value. *)
Variable faultError : fault -> error.

(** Modelled from the spec: what the pool does with a submitted task.  A
    rejected task has its error-continuation invoked with the rejection
    error and its action is not run; an accepted task has its action run,
    and a panic of the action is recovered and handed to the
    error-continuation. *)
Definition Pool_run (adm : Admission) (t : Task) : Go Event unit :=
  match adm with
  | Reject e => callErr (onError t) e
  | Accept => fun w =>
      match action t w with
      | (Ret a, w1, t1) => (Ret a, w1, t1)
      | (Panic v, w1, t1) =>
          match callErr (onError t) (faultError v) w1 with
          | (r, w2, t2) => (r, w2, t1 ++ t2)
          end
      end
  end.

(** Everything a caller can observe of one stage call once the pool has
    dealt with the tasks the call submitted. *)
Fixpoint settle (adm : Admission) (evs : list StageEvent) (w : W) : W * list Event :=
  match evs with
  | [] => (w, [])
  | Inline e :: rest =>
      let (w2, t2) := settle adm rest w in (w2, e :: t2)
  | Submitted _ _ t :: rest =>
      match Pool_run adm t w with
      | (_, w1, t1) => let (w2, t2) := settle adm rest w1 in (w2, t1 ++ t2)
      end
  end.

End Worker.

(** ** [baseStage] *)

Definition Type_ (stage : baseStage) : StageType := stageType stage.

(** The closure [execFn] of [Execute]. *)
Definition execFn (stage : baseStage) (node : PlanNode)
    (completeHandle : CompleteHandle) (errHandle : ErrHandle) : Go Event unit :=
  bind (execute stage node) (fun err =>
    match err with
    | Some e => callErr errHandle e
    | None => callComplete completeHandle
    end).

Definition Execute (stage : baseStage) (node : PlanNode)
    (completeHandle : CompleteHandle) (errHandle : ErrHandle) : Go StageEvent unit :=
  let execFn := execFn stage node completeHandle errHandle in
  match execPool stage, ctx stage with
  | Some pool, Some c => Submit pool c (NewTask execFn errHandle)
  | _, _ => inline execFn
  end.

Definition Complete (stage : baseStage) : Go StageEvent unit := ret tt.

(** The [Stage] interface: its four methods. *)
#[local] Unset Elimination Schemes.
Inductive Stage : Type := mkStage {
  Stage_Type : StageType;
  Stage_Execute : PlanNode -> CompleteHandle -> ErrHandle -> Go StageEvent unit;
  Stage_Complete : Go StageEvent unit;
  Stage_NextStages : list Stage
}.
#[local] Set Elimination Schemes.

(** A nil slice is the empty list. *)
Definition NextStages (stage : baseStage) : list Stage := [].

(** [baseStage] as a [Stage]. *)
Definition asStage (stage : baseStage) : Stage :=
  mkStage (Type_ stage) (Execute stage) (Complete stage) (NextStages stage).

(** ** Sessions *)

(** The methods of [baseStage] have pointer receivers.  A call is performed
    on the receiver's fields and leaves the receiver with the fields it has
    when the call ends, by return or by panic; no method body assigns to a
    field.  The caller may go on using the stage after a panic. *)
Inductive Call : Type :=
| CallType
| CallExecute (node : PlanNode) (completeHandle : CompleteHandle) (errHandle : ErrHandle)
| CallComplete
| CallNextStages.

Definition perform (stage : baseStage) (c : Call) (w : W) : baseStage * W * list StageEvent :=
  match c with
  | CallType => let _ := Type_ stage in (stage, w, [])
  | CallExecute node completeHandle errHandle =>
      match Execute stage node completeHandle errHandle w with
      | (_, w1, evs) => (stage, w1, evs)
      end
  | CallComplete =>
      match Complete stage w with
      | (_, w1, evs) => (stage, w1, evs)
      end
  | CallNextStages => let _ := NextStages stage in (stage, w, [])
  end.

Fixpoint session (stage : baseStage) (cs : list Call) (w : W) : baseStage * W * list StageEvent :=
  match cs with
  | [] => (stage, w, [])
  | c :: rest =>
      match perform stage c w with
      | (stage1, w1, t1) =>
          match session stage1 rest w1 with
          | (stage2, w2, t2) => (stage2, w2, t1 ++ t2)
          end
      end
  end.

(** ** The traversal as the spec words it *)

(** The nodes of a tree in depth-first pre-order: a node, then the subtrees
    of its children in declaration order; a nil reference holds no node. *)
Fixpoint preorder (node : PlanNode) : list (nat * NodeExec) :=
  match node with
  | nilNode => []
  | Node id ex children => (id, ex) :: flat_map preorder children
  end.

Definition ids (node : PlanNode) : list nat := map fst (preorder node).

(** Run the nodes of a sequence in order and stop at the first one that does
    not return nil. *)
Fixpoint runSeq (l : list (nat * NodeExec)) : Go Event (option error) :=
  match l with
  | [] => ret None
  | (id, ex) :: rest =>
      bind (callNode id ex) (fun err =>
        match err with
        | Some e => ret (Some e)
        | None => runSeq rest
        end)
  end.

(** Every node of the sequence, run in order from [w], returns nil; the
    result is the world reached. *)
Fixpoint succeedAll (l : list (nat * NodeExec)) (w : W) : option W :=
  match l with
  | [] => Some w
  | (_, ex) :: rest =>
      match ex w with
      | (Ret None, w1) => succeedAll rest w1
      | _ => None
      end
  end.

(** The log entry of a node that returned nil. *)
Definition okEvent (n : nat * NodeExec) : Event := EvExec (fst n) (Ret None).

(** The stage run without a stage: traverse, then call one continuation. *)
Definition specRun (node : PlanNode) (completeHandle : CompleteHandle)
    (errHandle : ErrHandle) : Go Event unit :=
  bind (runSeq (preorder node)) (fun err =>
    match err with
    | Some e => callErr errHandle e
    | None => callComplete completeHandle
    end).

(** A continuation that returns normally from every world. *)
Definition completeReturns (completeHandle : CompleteHandle) : Prop :=
  forall w, exists w1, completeHandle w = (Ret tt, w1).
Definition errReturns (errHandle : ErrHandle) : Prop :=
  forall e w, exists w1, errHandle e w = (Ret tt, w1).

(** The pool has accepted the task and the continuation [k] returns
    normally from the world [w1]. *)
Definition acceptedReturning (adm : Admission) (k : W -> Res unit * W) (w1 : W) : Prop :=
  adm = Accept /\ exists w2, k w1 = (Ret tt, w2).

(** What a caller observes of one [Execute] call, the pool included. *)
Definition observe (faultError : fault -> error) (adm : Admission) (stage : baseStage)
    (node : PlanNode) (completeHandle : CompleteHandle) (errHandle : ErrHandle)
    (w : W) : W * list Event :=
  match Execute stage node completeHandle errHandle w with
  | (_, w1, evs) => settle faultError adm evs w1
  end.

End Model.

Arguments PlanNode W : clear implicits.
Arguments Task W : clear implicits.
Arguments StageEvent W : clear implicits.
Arguments Stage W : clear implicits.
Arguments Call W : clear implicits.
Arguments NodeExec W : clear implicits.
Arguments CompleteHandle W : clear implicits.
Arguments ErrHandle W : clear implicits.
Arguments Go W E A : clear implicits.

(** ** Reading a log *)

Definition isCont (e : Event) : bool :=
  match e with
  | EvExec _ _ => false
  | EvComplete => true
  | EvError _ => true
  end.

(** The continuation calls of a log. *)
Definition conts (tr : list Event) : list Event := filter isCont tr.

(** The nodes whose [Execute] was invoked, in order. *)
Definition executed (tr : list Event) : list nat :=
  flat_map (fun e => match e with EvExec i _ => [i] | _ => [] end) tr.

(** The results the [Execute] methods ended with, in order. *)
Definition results (tr : list Event) : list (Res (option error)) :=
  flat_map (fun e => match e with EvExec _ r => [r] | _ => [] end) tr.

(** The continuation a traversal with these results leads to: none after a
    panic, [errHandle] after an error, [completeHandle] otherwise. *)
Definition verdict (rs : list (Res (option error))) : list Event :=
  match rev rs with
  | Panic _ :: _ => []
  | Ret (Some e) :: _ => [EvError e]
  | Ret None :: _ => [EvComplete]
  | [] => [EvComplete]
  end.

(** The stage runs on the calling thread: [execPool == nil || ctx == nil]. *)
Definition synchronous (stage : baseStage) : Prop :=
  execPool stage = None \/ ctx stage = None.

(** Foreign code that leaves the world as it found it. *)
Definition quietNode {W} (n : nat * NodeExec W) : Prop := forall w, snd (snd n w) = w.
Definition quietComplete {W} (completeHandle : CompleteHandle W) : Prop :=
  forall w, snd (completeHandle w) = w.
Definition quietErr {W} (errHandle : ErrHandle W) : Prop :=
  forall e w, snd (errHandle e w) = w.

(** The calls made on the calling thread. *)
Definition inlined {W} (evs : list (StageEvent W)) : list Event :=
  flat_map (fun e => match e with Inline e => [e] | Submitted _ _ _ => [] end) evs.

(** The tasks handed to a pool. *)
Definition submitted {W} (evs : list (StageEvent W)) : list (Task W) :=
  flat_map (fun e => match e with Inline _ => [] | Submitted _ _ t => [t] end) evs.

(** ** Sample inputs

    The world of the samples counts the calls made to node logic: a node
    adds one, [completeHandle] adds a hundred, [errHandle] a thousand. *)

Open Scope string_scope.

Definition okNode : NodeExec nat := fun w => (Ret None, S w).
Definition failNode (e : error) : NodeExec nat := fun w => (Ret (Some e), S w).
Definition panicNode (v : fault) : NodeExec nat := fun w => (Panic v, w).

Definition onComplete : CompleteHandle nat := fun w => (Ret tt, w + 100).
Definition onCompleteFaulty : CompleteHandle nat := fun w => (Panic "complete", w + 100).
Definition onErr : ErrHandle nat := fun _ w => (Ret tt, w + 1000).
Definition onErrFaulty : ErrHandle nat := fun _ w => (Panic "eh", w + 1000).

(** The tree A -> [B, C] in which A succeeds, B fails and C would succeed. *)
Definition treeABC : PlanNode nat :=
  Node 1 okNode [Node 2 (failNode "B failed") []; Node 3 okNode []].

(** A tree whose nodes all succeed, with an absent child. *)
Definition treeOk : PlanNode nat :=
  Node 1 okNode [Node 2 okNode [Node 3 okNode []]; nilNode; Node 4 okNode []].

(** The nodes of [treeABC] as a chain A -> B -> C. *)
Definition treeChain : PlanNode nat :=
  Node 1 okNode [Node 2 (failNode "B failed") [Node 3 okNode []]].

(** A single node whose logic panics. *)
Definition treePanic : PlanNode nat := Node 1 (panicNode "boom") [].

Definition syncStage : baseStage := {| ctx := None; stageType := 1%Z; execPool := None |}.
Definition noPoolStage : baseStage := {| ctx := Some 7; stageType := 1%Z; execPool := None |}.
Definition asyncStage : baseStage := {| ctx := Some 7; stageType := 2%Z; execPool := Some 3 |}.

(** Nodes and continuations that leave the world alone. *)
Definition quietOk : NodeExec nat := fun w => (Ret None, w).
Definition quietFail (e : error) : NodeExec nat := fun w => (Ret (Some e), w).
Definition onCompleteQuiet : CompleteHandle nat := fun w => (Ret tt, w).
Definition onErrQuiet : ErrHandle nat := fun _ w => (Ret tt, w).
Definition treeQuiet : PlanNode nat :=
  Node 5 quietOk [Node 6 (quietFail "B failed") [Node 7 quietOk []]].

(** The pool of the samples reports a recovered panic under its own value. *)
Definition sampleFaultError : fault -> error := fun v => "panic: " ++ v.

Close Scope string_scope.
Unset Implicit Arguments.

(** * Properties *)

Section Properties.

Context {W : Type}.

Implicit Types (stage : baseStage) (node : PlanNode W) (w : W).
Implicit Types (completeHandle : CompleteHandle W) (errHandle : ErrHandle W).
Implicit Types (id : nat) (ex : NodeExec W) (pre post : list (nat * NodeExec W)).

(** ** Induction on plan trees *)

Lemma PlanNode_ind (P : PlanNode W -> Prop) :
  P nilNode ->
  (forall id ex children, Forall P children -> P (Node id ex children)) ->
  forall node, P node.
Proof.
  intros Hnil Hnode.
  fix IH 1.
  intros [|id ex children].
  - exact Hnil.
  - apply Hnode.
    induction children as [|c cs IHcs].
    + constructor.
    + constructor; [apply IH | exact IHcs].
Qed.

(** ** The monad *)

Lemma bind_ext {E A B} (m : Go W E A) (f g : A -> Go W E B) w :
  (forall a w1, f a w1 = g a w1) -> bind m f w = bind m g w.
Proof.
  intros Hfg. unfold bind.
  destruct (m w) as [[[a|v] w1] t1]; [rewrite Hfg|]; reflexivity.
Qed.

Lemma bind_ret_l {E A B} (a : A) (f : A -> Go W E B) w :
  bind (ret a) f w = f a w.
Proof.
  unfold bind, ret. destruct (f a w) as [[r w2] t2]. reflexivity.
Qed.

Lemma execute_Node stage id ex (children : list (PlanNode W)) :
  execute stage (Node id ex children)
  = bind (callNode id ex) (andThen (executeChildren stage children)).
Proof. reflexivity. Qed.

Lemma executeChildren_cons stage (c : PlanNode W) (rest : list (PlanNode W)) :
  executeChildren stage (c :: rest)
  = bind (execute stage c) (andThen (executeChildren stage rest)).
Proof. reflexivity. Qed.

Lemma runSeq_cons id ex (rest : list (nat * NodeExec W)) :
  runSeq ((id, ex) :: rest) = bind (callNode id ex) (andThen (runSeq rest)).
Proof. reflexivity. Qed.

Lemma andThen_assoc (m k1 k2 : Go W Event (option error)) w :
  bind (bind m (andThen k1)) (andThen k2) w
  = bind m (andThen (bind k1 (andThen k2))) w.
Proof.
  unfold bind.
  destruct (m w) as [[[[e|]|v] w1] t1]; cbn; rewrite ?app_nil_r; try reflexivity.
  destruct (k1 w1) as [[[[e|]|v] w2] t2]; cbn; rewrite ?app_nil_r; try reflexivity.
  destruct (k2 w2) as [[r w3] t3]. rewrite app_assoc. reflexivity.
Qed.

Lemma runSeq_app (l1 l2 : list (nat * NodeExec W)) w :
  runSeq (l1 ++ l2) w = bind (runSeq l1) (andThen (runSeq l2)) w.
Proof.
  revert w. induction l1 as [|[id ex] l1 IH]; intros w.
  - cbn [app runSeq]. rewrite bind_ret_l. reflexivity.
  - cbn [app]. rewrite !runSeq_cons, andThen_assoc.
    apply bind_ext. intros [e|] w1; cbn [andThen].
    + reflexivity.
    + apply IH.
Qed.

(** ** The traversal is the pre-order scan *)

Lemma execute_runSeq stage node :
  forall w, execute stage node w = runSeq (preorder node) w.
Proof.
  induction node as [|id ex children IH] using PlanNode_ind; intros w.
  - reflexivity.
  - rewrite execute_Node. cbn [preorder]. rewrite runSeq_cons.
    apply bind_ext. intros [e|] w1; cbn [andThen]; [reflexivity|].
    clear w. revert w1.
    induction IH as [|c cs Hc _ IHcs]; intros w1.
    + reflexivity.
    + rewrite executeChildren_cons. cbn [flat_map]. rewrite runSeq_app.
      unfold bind. rewrite Hc.
      destruct (runSeq (preorder c) w1) as [[[[e|]|v] w2] t2]; cbn [andThen]; try reflexivity.
      rewrite IHcs. reflexivity.
Qed.

Lemma executeChildren_runSeq stage children :
  forall w, executeChildren stage children w = runSeq (flat_map preorder children) w.
Proof.
  induction children as [|c cs IH]; intros w.
  - reflexivity.
  - rewrite executeChildren_cons. cbn [flat_map]. rewrite runSeq_app.
    unfold bind. rewrite execute_runSeq.
    destruct (runSeq (preorder c) w) as [[[[e|]|v] w2] t2]; cbn [andThen]; try reflexivity.
    rewrite IH. reflexivity.
Qed.

(** ** The pre-order scan *)

Lemma runSeq_all_nil (l : list (nat * NodeExec W)) :
  forall w w1, succeedAll l w = Some w1 ->
  runSeq l w = (Ret None, w1, map okEvent l).
Proof.
  induction l as [|[id ex] l IH]; intros w w1 Hall.
  - cbn in Hall. injection Hall as <-. reflexivity.
  - rewrite runSeq_cons. cbn [succeedAll] in Hall.
    unfold bind, callNode.
    destruct (ex w) as [[[e|]|v] w2]; try discriminate.
    cbn [andThen]. rewrite (IH _ _ Hall). reflexivity.
Qed.

Lemma runSeq_stop pre post id ex :
  forall w w1 r w2,
  succeedAll pre w = Some w1 -> ex w1 = (r, w2) -> r <> Ret None ->
  runSeq (pre ++ (id, ex) :: post) w = (r, w2, map okEvent pre ++ [EvExec id r]).
Proof.
  intros w w1 r w2 Hall Hex Hr.
  rewrite runSeq_app. unfold bind at 1.
  rewrite (runSeq_all_nil _ _ _ Hall). cbn [andThen].
  rewrite runSeq_cons. unfold bind, callNode. rewrite Hex.
  destruct r as [[e|]|v]; [reflexivity | contradiction | reflexivity].
Qed.

(** Either every node returns nil, or there is a first node that does not. *)
Lemma succeedAll_cases (l : list (nat * NodeExec W)) :
  forall w,
  (exists w1, succeedAll l w = Some w1) \/
  (exists pre id ex post w1 r w2,
     l = pre ++ (id, ex) :: post /\ succeedAll pre w = Some w1 /\
     ex w1 = (r, w2) /\ r <> Ret None).
Proof.
  induction l as [|[id ex] l IH]; intros w.
  - left. exists w. reflexivity.
  - destruct (ex w) as [r w1] eqn:Hex.
    assert (Hstop : r <> Ret None ->
      exists pre id0 ex0 post w0 r0 w2,
        (id, ex) :: l = pre ++ (id0, ex0) :: post /\ succeedAll pre w = Some w0 /\
        ex0 w0 = (r0, w2) /\ r0 <> Ret None).
    { intros Hr. exists [], id, ex, l, w, r, w1. repeat split; auto. }
    destruct r as [[e|]|v].
    + right. apply Hstop. discriminate.
    + destruct (IH w1)
        as [[w2 Hall]|(pre & id0 & ex0 & post & w0 & r0 & w2 & -> & Hall & Hex0 & Hr0)].
      * left. exists w2. cbn [succeedAll]. rewrite Hex. exact Hall.
      * right. exists ((id, ex) :: pre), id0, ex0, post, w0, r0, w2.
        repeat split; auto. cbn [succeedAll]. rewrite Hex. exact Hall.
    + right. apply Hstop. discriminate.
Qed.

Lemma succeedAll_app (l1 l2 : list (nat * NodeExec W)) :
  forall w, succeedAll (l1 ++ l2) w
  = match succeedAll l1 w with
    | Some w1 => succeedAll l2 w1
    | None => None
    end.
Proof.
  induction l1 as [|[id ex] l1 IH]; intros w; cbn [app succeedAll].
  - reflexivity.
  - destruct (ex w) as [[[e|]|v] w1]; auto.
Qed.

(** ** Reading a log *)

Lemma conts_app (t1 t2 : list Event) : conts (t1 ++ t2) = conts t1 ++ conts t2.
Proof. apply filter_app. Qed.

Lemma executed_app (t1 t2 : list Event) : executed (t1 ++ t2) = executed t1 ++ executed t2.
Proof. apply flat_map_app. Qed.

Lemma results_app (t1 t2 : list Event) : results (t1 ++ t2) = results t1 ++ results t2.
Proof. apply flat_map_app. Qed.

Lemma conts_okEvents (l : list (nat * NodeExec W)) : conts (map okEvent l) = [].
Proof. induction l as [|n l IH]; [reflexivity | exact IH]. Qed.

Lemma executed_okEvents (l : list (nat * NodeExec W)) : executed (map okEvent l) = map fst l.
Proof. induction l as [|n l IH]; [reflexivity | cbn; f_equal; exact IH]. Qed.

Lemma results_okEvents (l : list (nat * NodeExec W)) :
  results (map okEvent l) = repeat (Ret None) (List.length l).
Proof. induction l as [|n l IH]; [reflexivity | cbn; f_equal; exact IH]. Qed.

(** ** The closure [execFn] *)

Lemma execFn_specRun stage node completeHandle errHandle w :
  execFn stage node completeHandle errHandle w = specRun node completeHandle errHandle w.
Proof.
  unfold execFn, specRun, bind. rewrite execute_runSeq. reflexivity.
Qed.

Lemma specRun_all_nil node completeHandle errHandle w w1 :
  succeedAll (preorder node) w = Some w1 ->
  specRun node completeHandle errHandle w
  = (let (r, w2) := completeHandle w1 in
     (r, w2, map okEvent (preorder node) ++ [EvComplete])).
Proof.
  intros Hall. unfold specRun, bind. rewrite (runSeq_all_nil _ _ _ Hall).
  unfold callComplete. destruct (completeHandle w1) as [r w2]. reflexivity.
Qed.

Lemma specRun_error node completeHandle errHandle pre id ex post w w1 e w2 :
  preorder node = pre ++ (id, ex) :: post ->
  succeedAll pre w = Some w1 -> ex w1 = (Ret (Some e), w2) ->
  specRun node completeHandle errHandle w
  = (let (r, w3) := errHandle e w2 in
     (r, w3, map okEvent pre ++ [EvExec id (Ret (Some e)); EvError e])).
Proof.
  intros Hpre Hall Hex. unfold specRun, bind. rewrite Hpre.
  rewrite (runSeq_stop _ post id _ _ _ _ _ Hall Hex) by discriminate.
  unfold callErr. destruct (errHandle e w2) as [r w3].
  rewrite <- app_assoc. reflexivity.
Qed.

Lemma specRun_panic node completeHandle errHandle pre id ex post w w1 v w2 :
  preorder node = pre ++ (id, ex) :: post ->
  succeedAll pre w = Some w1 -> ex w1 = (Panic v, w2) ->
  specRun node completeHandle errHandle w
  = (Panic v, w2, map okEvent pre ++ [EvExec id (Panic v)]).
Proof.
  intros Hpre Hall Hex. unfold specRun, bind. rewrite Hpre.
  rewrite (runSeq_stop _ post id _ _ _ _ _ Hall Hex) by discriminate.
  reflexivity.
Qed.

(** The three ways the closure can go. *)
Lemma specRun_cases node completeHandle errHandle w :
  (exists w1,
     succeedAll (preorder node) w = Some w1 /\
     specRun node completeHandle errHandle w
     = (let (r, w2) := completeHandle w1 in
        (r, w2, map okEvent (preorder node) ++ [EvComplete])))
  \/ (exists pre id ex post w1 e w2,
        preorder node = pre ++ (id, ex) :: post /\
        succeedAll pre w = Some w1 /\ ex w1 = (Ret (Some e), w2) /\
        specRun node completeHandle errHandle w
        = (let (r, w3) := errHandle e w2 in
           (r, w3, map okEvent pre ++ [EvExec id (Ret (Some e)); EvError e])))
  \/ (exists pre id ex post w1 v w2,
        preorder node = pre ++ (id, ex) :: post /\
        succeedAll pre w = Some w1 /\ ex w1 = (Panic v, w2) /\
        specRun node completeHandle errHandle w
        = (Panic v, w2, map okEvent pre ++ [EvExec id (Panic v)])).
Proof.
  destruct (succeedAll_cases (preorder node) w)
    as [[w1 Hall]|(pre & id & ex & post & w1 & r & w2 & Hpre & Hall & Hex & Hr)].
  - left. exists w1. split; [exact Hall|]. apply specRun_all_nil, Hall.
  - destruct r as [[e|]|v].
    + right; left. exists pre, id, ex, post, w1, e, w2. repeat split; auto.
      eapply specRun_error; eauto.
    + contradiction.
    + right; right. exists pre, id, ex, post, w1, v, w2. repeat split; auto.
      eapply specRun_panic; eauto.
Qed.

Lemma snd_let_pair {A B C : Type} (p : A * B) (t : C) :
  snd (let (r, w) := p in (r, w, t)) = t.
Proof. destruct p; reflexivity. Qed.

Lemma fst_let_pair {A B C : Type} (p : A * B) (t : C) :
  fst (let (r, w) := p in (r, w, t)) = p.
Proof. destruct p; reflexivity. Qed.

Ltac specRun_split node completeHandle errHandle w :=
  let Hrun := fresh "Hrun" in
  destruct (specRun_cases node completeHandle errHandle w)
    as [(?w1 & ?Hall & Hrun)
       |[(?pre & ?id & ?ex & ?post & ?w1 & ?e & ?w2 & ?Hpre & ?Hall & ?Hex & Hrun)
        |(?pre & ?id & ?ex & ?post & ?w1 & ?v & ?w2 & ?Hpre & ?Hall & ?Hex & Hrun)]];
  rewrite Hrun in *.

Ltac log_simpl :=
  rewrite ?snd_let_pair; cbn [snd fst];
  repeat first
    [ rewrite conts_app | rewrite results_app
    | rewrite executed_app | rewrite conts_okEvents | rewrite results_okEvents
    | rewrite executed_okEvents ];
  cbn [snd fst conts results executed filter flat_map isCont app].

(** The continuation called is the one the results of the nodes lead to. *)
Lemma specRun_verdict node completeHandle errHandle w :
  conts (snd (specRun node completeHandle errHandle w))
  = verdict (results (snd (specRun node completeHandle errHandle w))).
Proof.
  specRun_split node completeHandle errHandle w; log_simpl.
  - rewrite app_nil_r. unfold verdict. rewrite rev_repeat.
    destruct (List.length (preorder node)); reflexivity.
  - unfold verdict. rewrite rev_app_distr. reflexivity.
  - unfold verdict. rewrite rev_app_distr. reflexivity.
Qed.

Lemma specRun_conts_le node completeHandle errHandle w :
  List.length (conts (snd (specRun node completeHandle errHandle w))) <= 1.
Proof.
  specRun_split node completeHandle errHandle w; log_simpl; cbn; lia.
Qed.

Lemma specRun_conts_one node completeHandle errHandle w :
  (forall v w1 tr, runSeq (preorder node) w <> (Panic v, w1, tr)) ->
  List.length (conts (snd (specRun node completeHandle errHandle w))) = 1.
Proof.
  intros Hnopanic.
  specRun_split node completeHandle errHandle w; log_simpl; try reflexivity.
  exfalso. eapply Hnopanic. rewrite Hpre.
  apply (runSeq_stop pre post id ex w w1 (Panic v) w2 Hall Hex). discriminate.
Qed.

(** ** Dispatch *)

Lemma Execute_sync stage node completeHandle errHandle w :
  synchronous stage ->
  Execute stage node completeHandle errHandle w
  = inline (execFn stage node completeHandle errHandle) w.
Proof.
  unfold Execute. intros [Hp|Hc].
  - rewrite Hp. reflexivity.
  - rewrite Hc. destruct (execPool stage); reflexivity.
Qed.

Lemma Execute_async stage node completeHandle errHandle w p c :
  execPool stage = Some p -> ctx stage = Some c ->
  Execute stage node completeHandle errHandle w
  = (Ret tt, w, [Submitted p c (NewTask (execFn stage node completeHandle errHandle) errHandle)]).
Proof.
  unfold Execute. intros -> ->. reflexivity.
Qed.

Lemma sync_or_async stage :
  synchronous stage \/ exists p c, execPool stage = Some p /\ ctx stage = Some c.
Proof.
  unfold synchronous.
  destruct (execPool stage) as [p|]; [|auto].
  destruct (ctx stage) as [c|]; [|auto].
  right. exists p, c. auto.
Qed.

Lemma settle_inline fe adm (t : list Event) w :
  settle fe adm (map (@Inline W) t) w = (w, t).
Proof.
  induction t as [|e t IH]; [reflexivity|].
  cbn. rewrite IH. reflexivity.
Qed.

Lemma observe_sync fe adm stage node completeHandle errHandle w :
  synchronous stage ->
  snd (observe fe adm stage node completeHandle errHandle w)
  = snd (specRun node completeHandle errHandle w).
Proof.
  intros Hs. unfold observe. rewrite (Execute_sync _ _ _ _ _ Hs).
  unfold inline. rewrite execFn_specRun.
  destruct (specRun node completeHandle errHandle w) as [[r w1] t].
  rewrite settle_inline. reflexivity.
Qed.

Lemma observe_async fe adm stage node completeHandle errHandle w p c :
  execPool stage = Some p -> ctx stage = Some c ->
  snd (observe fe adm stage node completeHandle errHandle w)
  = snd (Pool_run fe adm (NewTask (specRun node completeHandle errHandle) errHandle) w).
Proof.
  intros Hp Hc. unfold observe. rewrite (Execute_async _ _ _ _ _ _ _ Hp Hc).
  cbn [settle].
  assert (Heq : Pool_run fe adm (NewTask (execFn stage node completeHandle errHandle) errHandle) w
                = Pool_run fe adm (NewTask (specRun node completeHandle errHandle) errHandle) w).
  { destruct adm; [|reflexivity]. cbn. rewrite execFn_specRun. reflexivity. }
  rewrite Heq.
  destruct (Pool_run fe adm (NewTask (specRun node completeHandle errHandle) errHandle) w)
    as [[r w1] t1].
  cbn. apply app_nil_r.
Qed.

(** The log of an accepted task: the log of its action, and the
    error-continuation after a panic. *)
Lemma Pool_run_accept_log fe (t : Task W) w :
  snd (Pool_run fe Accept t w)
  = snd (action t w)
    ++ match fst (fst (action t w)) with
       | Panic v => [EvError (fe v)]
       | Ret _ => []
       end.
Proof.
  cbn. destruct (action t w) as [[[a|v] w1] t1]; cbn.
  - symmetry. apply app_nil_r.
  - unfold callErr. destruct (onError t (fe v) w1) as [r w2]. reflexivity.
Qed.

Lemma Pool_run_accept_ret fe (t : Task W) w w1 tr :
  action t w = (Ret tt, w1, tr) -> Pool_run fe Accept t w = (Ret tt, w1, tr).
Proof. intros H. cbn. rewrite H. reflexivity. Qed.

Lemma Pool_run_reject fe e (t : Task W) w :
  Pool_run fe (Reject e) t w = callErr (onError t) e w.
Proof. reflexivity. Qed.

(** ** The observed log *)

Lemma observe_returning fe stage node completeHandle errHandle w w2 tr :
  specRun node completeHandle errHandle w = (Ret tt, w2, tr) ->
  snd (observe fe Accept stage node completeHandle errHandle w) = tr.
Proof.
  intros Hrun.
  destruct (sync_or_async stage) as [Hs|(p & c & Hp & Hc)].
  - rewrite (observe_sync _ _ _ _ _ _ _ Hs), Hrun. reflexivity.
  - rewrite (observe_async _ _ _ _ _ _ _ _ _ Hp Hc).
    rewrite (Pool_run_accept_ret fe
               (NewTask (specRun node completeHandle errHandle) errHandle) w w2 tr Hrun).
    reflexivity.
Qed.

(** Every node returns nil: all are run, then [completeHandle], and that is all. *)
Lemma observe_all_nil fe adm stage node completeHandle errHandle w w1 :
  succeedAll (preorder node) w = Some w1 ->
  synchronous stage \/ acceptedReturning adm completeHandle w1 ->
  snd (observe fe adm stage node completeHandle errHandle w)
  = map okEvent (preorder node) ++ [EvComplete].
Proof.
  intros Hall [Hs|[-> [w2 Hch]]].
  - rewrite (observe_sync _ _ _ _ _ _ _ Hs).
    rewrite (specRun_all_nil node completeHandle errHandle w w1 Hall).
    apply snd_let_pair.
  - apply (observe_returning fe stage node completeHandle errHandle w w2).
    rewrite (specRun_all_nil node completeHandle errHandle w w1 Hall), Hch.
    reflexivity.
Qed.

(** A node returns an error after its predecessors returned nil: they are
    run, then [errHandle] with that error, and that is all. *)
Lemma observe_first_error fe adm stage node completeHandle errHandle pre id ex post w w1 e w2 :
  preorder node = pre ++ (id, ex) :: post ->
  succeedAll pre w = Some w1 -> ex w1 = (Ret (Some e), w2) ->
  synchronous stage \/ acceptedReturning adm (errHandle e) w2 ->
  snd (observe fe adm stage node completeHandle errHandle w)
  = map okEvent pre ++ [EvExec id (Ret (Some e)); EvError e].
Proof.
  intros Hpre Hall Hex [Hs|[-> [w3 Heh]]].
  - rewrite (observe_sync _ _ _ _ _ _ _ Hs).
    rewrite (specRun_error node completeHandle errHandle pre id ex post w w1 e w2
               Hpre Hall Hex).
    apply snd_let_pair.
  - apply (observe_returning fe stage node completeHandle errHandle w w3).
    rewrite (specRun_error node completeHandle errHandle pre id ex post w w1 e w2
               Hpre Hall Hex), Heh.
    reflexivity.
Qed.

(** ** Order of the traversal *)

Lemma runSeq_unfold id ex (rest : list (nat * NodeExec W)) w :
  runSeq ((id, ex) :: rest) w
  = match ex w with
    | (Ret None, w1) =>
        match runSeq rest w1 with
        | (r, w2, t) => (r, w2, EvExec id (Ret None) :: t)
        end
    | (r, w1) => (r, w1, [EvExec id r])
    end.
Proof.
  rewrite runSeq_cons. unfold bind, callNode.
  destruct (ex w) as [[[e|]|v] w1]; reflexivity.
Qed.

(** The nodes run are an initial segment of the pre-order sequence. *)
Lemma runSeq_prefix (l : list (nat * NodeExec W)) w :
  exists rest, map fst l = executed (snd (runSeq l w)) ++ rest.
Proof.
  destruct (succeedAll_cases l w)
    as [[w1 Hall]|(pre & id & ex & post & w1 & r & w2 & -> & Hall & Hex & Hr)].
  - exists []. rewrite (runSeq_all_nil _ _ _ Hall). cbn [snd].
    rewrite executed_okEvents, app_nil_r. reflexivity.
  - exists (map fst post).
    rewrite (runSeq_stop pre post id ex w w1 r w2 Hall Hex Hr). cbn [snd].
    rewrite executed_app, executed_okEvents, map_app, <- app_assoc. reflexivity.
Qed.

(** A node whose own logic fails has none of its children run. *)
Lemma own_failure_gates_children stage id ex children w e w1 :
  ex w = (Ret (Some e), w1) ->
  execute stage (Node id ex children) w = (Ret (Some e), w1, [EvExec id (Ret (Some e))]).
Proof.
  intros Hex. rewrite execute_Node. unfold bind, callNode. rewrite Hex. reflexivity.
Qed.

(** The first child that fails has none of its later siblings run. *)
Lemma child_failure_gates_siblings stage before c after w w1 t1 e w2 t2 :
  executeChildren stage before w = (Ret None, w1, t1) ->
  execute stage c w1 = (Ret (Some e), w2, t2) ->
  executeChildren stage (before ++ c :: after) w = (Ret (Some e), w2, t1 ++ t2).
Proof.
  revert w t1. induction before as [|b before IH]; intros w t1 Hbefore Hc.
  - cbn in Hbefore. injection Hbefore as <- <-.
    cbn [app]. rewrite executeChildren_cons. unfold bind. rewrite Hc.
    cbn. rewrite app_nil_r. reflexivity.
  - cbn [app]. rewrite executeChildren_cons in *. unfold bind in *.
    destruct (execute stage b w) as [[[[e0|]|v] w0] t0]; cbn [andThen] in *;
      try discriminate.
    destruct (executeChildren stage before w0) as [[r0 w3] t3] eqn:Hrest.
    injection Hbefore as -> -> <-.
    rewrite (IH w0 t3 Hrest Hc). rewrite app_assoc. reflexivity.
Qed.

(** C3: [execute] runs the nodes of a tree in depth-first pre-order (a node
    before its children, the children in slice order) and stops at the first
    node that does not return nil: it is the scan of the pre-order sequence,
    and the nodes it ran are an initial segment of that sequence; a node
    that fails has no child run, and the first child that fails has no later
    sibling run. *)
Theorem execute_preorder stage node w :
  execute stage node w = runSeq (preorder node) w
  /\ (exists rest, ids node = executed (snd (execute stage node w)) ++ rest)
  /\ (forall id ex children e w1,
        ex w = (Ret (Some e), w1) ->
        execute stage (Node id ex children) w
        = (Ret (Some e), w1, [EvExec id (Ret (Some e))]))
  /\ (forall before c after w1 t1 e w2 t2,
        executeChildren stage before w = (Ret None, w1, t1) ->
        execute stage c w1 = (Ret (Some e), w2, t2) ->
        executeChildren stage (before ++ c :: after) w = (Ret (Some e), w2, t1 ++ t2)).
Proof.
  split; [|split; [|split]].
  - apply execute_runSeq.
  - rewrite execute_runSeq. apply runSeq_prefix.
  - intros. apply own_failure_gates_children. assumption.
  - intros. eapply child_failure_gates_siblings; eassumption.
Qed.

(** ** Absent nodes *)

Lemma preorder_skip_nil (cs1 cs2 : list (PlanNode W)) :
  flat_map preorder (cs1 ++ nilNode :: cs2) = flat_map preorder (cs1 ++ cs2).
Proof. rewrite !flat_map_app. reflexivity. Qed.

(** C5, as the code has it: a nil node is a success that runs nothing; the
    closure of [Execute] on a nil node only calls [completeHandle]; what a
    caller observes of [Execute] on a nil node is one call of
    [completeHandle] and none of [errHandle] on the synchronous path, and
    on the asynchronous path when the pool accepts the task and
    [completeHandle] returns normally; a nil child among the children of a
    node changes nothing. *)
Theorem execute_nil stage completeHandle errHandle w :
  execute stage nilNode w = (Ret None, w, [])
  /\ execFn stage nilNode completeHandle errHandle w = callComplete completeHandle w
  /\ Execute stage nilNode completeHandle errHandle w
     = match execPool stage, ctx stage with
       | Some p, Some c =>
           (Ret tt, w, [Submitted p c (NewTask (execFn stage nilNode completeHandle errHandle) errHandle)])
       | _, _ => inline (callComplete completeHandle) w
       end
  /\ (forall fe adm,
        synchronous stage \/ acceptedReturning adm completeHandle w ->
        snd (observe fe adm stage nilNode completeHandle errHandle w) = [EvComplete])
  /\ forall id ex cs1 cs2 w1,
       execute stage (Node id ex (cs1 ++ nilNode :: cs2)) w1
       = execute stage (Node id ex (cs1 ++ cs2)) w1.
Proof.
  assert (Hfn : forall w0, execFn stage nilNode completeHandle errHandle w0
                           = callComplete completeHandle w0).
  { intros w0. unfold execFn. cbn [execute]. rewrite bind_ret_l. reflexivity. }
  split; [reflexivity|]. split; [apply Hfn|]. split; [|split].
  - unfold Execute.
    destruct (execPool stage) as [p|], (ctx stage) as [c|]; try reflexivity;
      unfold inline; rewrite Hfn; reflexivity.
  - intros fe adm Hpath.
    apply (observe_all_nil fe adm stage nilNode completeHandle errHandle w w eq_refl Hpath).
  - intros id ex cs1 cs2 w1. rewrite !execute_runSeq. cbn [preorder].
    rewrite preorder_skip_nil. reflexivity.
Qed.

(** ** Every node at most once *)

Lemma runSeq_runs_reached (pre post : list (nat * NodeExec W)) id ex :
  forall w w0, succeedAll pre w = Some w0 ->
  In id (executed (snd (runSeq (pre ++ (id, ex) :: post) w))).
Proof.
  induction pre as [|[id0 ex0] pre IH]; intros w w0 Hall; cbn [app];
    rewrite runSeq_unfold.
  - destruct (ex w) as [[[e|]|v] w1]; try (left; reflexivity).
    destruct (runSeq post w1) as [[r w2] t]. left; reflexivity.
  - cbn [succeedAll] in Hall.
    destruct (ex0 w) as [[[e|]|v] w1]; try discriminate.
    specialize (IH w1 w0 Hall).
    destruct (runSeq (pre ++ (id, ex) :: post) w1) as [[r w2] t].
    right. exact IH.
Qed.

(** C6: [execute] ends on every tree; on a tree (no node object occurs
    twice) it invokes the [Execute] of no node twice, and it invokes exactly
    once the [Execute] of a node all of whose predecessors in pre-order
    return nil. *)
Theorem execute_visits_once stage node w :
  NoDup (ids node) ->
  exists r w1 tr,
    execute stage node w = (r, w1, tr)
    /\ NoDup (executed tr)
    /\ forall pre id ex post w0,
         preorder node = pre ++ (id, ex) :: post ->
         succeedAll pre w = Some w0 ->
         count_occ Nat.eq_dec (executed tr) id = 1.
Proof.
  intros Hnodup.
  destruct (execute stage node w) as [[r w1] tr] eqn:Hrun.
  exists r, w1, tr. split; [reflexivity|].
  destruct (runSeq_prefix (preorder node) w) as [rest Hids].
  rewrite <- execute_runSeq with (stage := stage) in Hids.
  rewrite Hrun in Hids. cbn [snd] in Hids. fold (ids node) in Hids.
  assert (Hnd : NoDup (executed tr)).
  { rewrite Hids in Hnodup. apply NoDup_app_remove_r in Hnodup. exact Hnodup. }
  split; [exact Hnd|].
  intros pre id ex post w0 Hpre Hall.
  apply NoDup_count_occ'; [exact Hnd|].
  rewrite execute_runSeq, Hpre in Hrun.
  pose proof (runSeq_runs_reached pre post id ex w w0 Hall) as Hin.
  rewrite Hrun in Hin. exact Hin.
Qed.

(** ** Defaults *)

(** C8: the default [Complete] does nothing, also when it is called again,
    and the default [NextStages] is empty, for every stage and every world. *)
Theorem Complete_NextStages_default stage w :
  Complete stage w = (Ret tt, w, [])
  /\ bind (Complete stage) (fun _ => Complete stage) w = (Ret tt, w, [])
  /\ NextStages (W:=W) stage = []
  /\ Stage_Complete (asStage stage) w = (Ret tt, w, [])
  /\ Stage_NextStages (asStage (W:=W) stage) = [].
Proof. repeat split. Qed.

(** ** The two paths *)

Lemma inlined_inline (t : list Event) : inlined (map (@Inline W) t) = t.
Proof. induction t as [|e t IH]; [reflexivity | cbn; f_equal; exact IH]. Qed.

Lemma submitted_inline (t : list Event) : submitted (map (@Inline W) t) = [].
Proof. induction t as [|e t IH]; [reflexivity | exact IH]. Qed.

Lemma not_sync_and_async stage p c :
  execPool stage = Some p -> ctx stage = Some c -> ~ synchronous stage.
Proof. intros Hp Hc [H|H]; congruence. Qed.

(** The continuations called for an accepted task. *)
Lemma Pool_run_accept_conts fe node completeHandle errHandle w :
  conts (snd (Pool_run fe Accept (NewTask (specRun node completeHandle errHandle) errHandle) w))
  = conts (snd (specRun node completeHandle errHandle w))
    ++ match fst (fst (specRun node completeHandle errHandle w)) with
       | Panic v => [EvError (fe v)]
       | Ret _ => []
       end.
Proof.
  rewrite Pool_run_accept_log. cbn [action]. rewrite conts_app.
  destruct (fst (fst (specRun node completeHandle errHandle w))); reflexivity.
Qed.

(** Whatever the pool does with the task of a stage, a continuation is called. *)
Lemma Pool_run_calls_back fe adm stage node completeHandle errHandle w :
  conts (snd (Pool_run fe adm (NewTask (execFn stage node completeHandle errHandle) errHandle) w))
  <> [].
Proof.
  destruct adm as [|e].
  - rewrite Pool_run_accept_log. cbn [action]. rewrite execFn_specRun.
    specRun_split node completeHandle errHandle w.
    + destruct (completeHandle w1) as [r w2]. cbn [snd fst]. log_simpl.
      discriminate.
    + destruct (errHandle e w2) as [r w3]. cbn [snd fst]. log_simpl.
      discriminate.
    + log_simpl. discriminate.
  - rewrite Pool_run_reject. cbn [onError]. unfold callErr.
    destruct (errHandle e w) as [r w1]. discriminate.
Qed.

(** C4: [Execute] runs the closure on the calling thread exactly when the
    pool or the context is nil, and then a call that returns has called
    exactly one continuation and has submitted nothing; with both set it
    submits the closure as a task to the pool under the context and returns
    at once, no node run, no continuation called, and the pool calls a
    continuation when it deals with the task. *)
Theorem Execute_sync_iff stage node completeHandle errHandle w :
  (execPool stage = None \/ ctx stage = None
   <-> Execute stage node completeHandle errHandle w
       = inline (execFn stage node completeHandle errHandle) w)
  /\ (execPool stage = None \/ ctx stage = None ->
      forall w1 evs,
      Execute stage node completeHandle errHandle w = (Ret tt, w1, evs) ->
      submitted evs = [] /\ List.length (conts (inlined evs)) = 1)
  /\ (forall p c, execPool stage = Some p -> ctx stage = Some c ->
      Execute stage node completeHandle errHandle w
      = (Ret tt, w, [Submitted p c (NewTask (execFn stage node completeHandle errHandle) errHandle)])
      /\ forall fe adm w1,
         conts (snd (Pool_run fe adm
                  (NewTask (execFn stage node completeHandle errHandle) errHandle) w1)) <> []).
Proof.
  split; [split|split].
  - apply Execute_sync.
  - intros Hrun. destruct (sync_or_async stage) as [Hs|(p & c & Hp & Hc)]; [exact Hs|].
    rewrite (Execute_async _ _ _ _ _ _ _ Hp Hc) in Hrun. unfold inline in Hrun.
    destruct (execFn stage node completeHandle errHandle w) as [[r w1] [|e [|e' t]]];
      cbn in Hrun; congruence.
  - intros Hs w1 evs Hrun.
    rewrite (Execute_sync _ _ _ _ _ Hs) in Hrun. unfold inline in Hrun.
    rewrite execFn_specRun in Hrun.
    pose proof (specRun_conts_le node completeHandle errHandle w) as Hle.
    assert (Hne : conts (snd (specRun node completeHandle errHandle w)) <> []).
    { specRun_split node completeHandle errHandle w.
      - log_simpl. discriminate.
      - log_simpl. discriminate.
      - discriminate. }
    destruct (specRun node completeHandle errHandle w) as [[r w2] t].
    injection Hrun as -> -> <-. cbn [snd] in *.
    rewrite submitted_inline, inlined_inline. split; [reflexivity|].
    destruct (conts t) as [|e l]; [contradiction|]. cbn in *. lia.
  - intros p c Hp Hc. split.
    + apply Execute_async; assumption.
    + intros fe adm w1. apply Pool_run_calls_back.
Qed.

(** C7: on the asynchronous path the task submitted has the caller's
    [errHandle] as its error-continuation: a rejection calls it with the
    rejection error, a panic of the action calls it with the error made of
    the panic, and an error returned by a node reaches the same function from
    inside the action. *)
Theorem Execute_installs_errHandle stage node completeHandle errHandle w p c :
  execPool stage = Some p -> ctx stage = Some c ->
  exists t,
    Execute stage node completeHandle errHandle w = (Ret tt, w, [Submitted p c t])
    /\ onError t = errHandle
    /\ (forall fe e w1, Pool_run fe (Reject e) t w1 = callErr errHandle e w1)
    /\ (forall fe v w1 w2 tr,
          action t w1 = (Panic v, w2, tr) ->
          Pool_run fe Accept t w1
          = match callErr errHandle (fe v) w2 with
            | (r, w3, t3) => (r, w3, tr ++ t3)
            end)
    /\ (forall e w1 w2 tr,
          execute stage node w1 = (Ret (Some e), w2, tr) ->
          action t w1
          = match callErr errHandle e w2 with
            | (r, w3, t3) => (r, w3, tr ++ t3)
            end).
Proof.
  intros Hp Hc.
  exists (NewTask (execFn stage node completeHandle errHandle) errHandle).
  split; [apply Execute_async; assumption|].
  split; [reflexivity|].
  split; [reflexivity|].
  split.
  - intros fe v w1 w2 tr Hact. cbn [Pool_run onError]. rewrite Hact. reflexivity.
  - intros e w1 w2 tr Hrun. cbn [action]. unfold execFn, bind. rewrite Hrun.
    reflexivity.
Qed.

(** ** One continuation *)

(** X4: on the synchronous path at most one continuation call is made,
    whatever the node logic and the continuations do (return, fail or
    panic). *)
Lemma Execute_sync_at_most_one fe adm stage node completeHandle errHandle w :
  synchronous stage ->
  List.length (conts (snd (observe fe adm stage node completeHandle errHandle w))) <= 1.
Proof.
  intros Hs. rewrite (observe_sync _ _ _ _ _ _ _ Hs). apply specRun_conts_le.
Qed.

(** C1, as the code has it: exactly one continuation is called when, on the
    synchronous path, no node panics, and when, on the asynchronous path,
    the continuations return normally; the latter covers a panic of a node
    (the pool calls [errHandle]) and a rejection by the pool. *)
Theorem Execute_exactly_one fe adm stage node completeHandle errHandle w :
  (synchronous stage -> forall v w1 tr, execute stage node w <> (Panic v, w1, tr)) ->
  (~ synchronous stage -> completeReturns completeHandle /\ errReturns errHandle) ->
  List.length (conts (snd (observe fe adm stage node completeHandle errHandle w))) = 1.
Proof.
  intros Hsync Hasync.
  destruct (sync_or_async stage) as [Hs|(p & c & Hp & Hc)].
  - rewrite (observe_sync _ _ _ _ _ _ _ Hs). apply specRun_conts_one.
    intros v w1 tr. rewrite <- (execute_runSeq stage). apply Hsync, Hs.
  - destruct (Hasync (not_sync_and_async _ _ _ Hp Hc)) as [Hch Heh].
    rewrite (observe_async _ _ _ _ _ _ _ _ _ Hp Hc).
    destruct adm as [|e0].
    + rewrite Pool_run_accept_conts.
      specRun_split node completeHandle errHandle w.
      * destruct (Hch w1) as [w2 ->]. cbn [snd fst]. log_simpl. reflexivity.
      * destruct (Heh e w2) as [w3 ->]. cbn [snd fst]. log_simpl. reflexivity.
      * cbn [snd fst]. log_simpl. reflexivity.
    + rewrite Pool_run_reject. cbn [onError]. unfold callErr.
      destruct (errHandle e0 w) as [r w1]. reflexivity.
Qed.

(** ** Which continuation, with which error *)

(** C2, as the code has it: on the synchronous path, and on the
    asynchronous path when the pool accepts the task and the continuation
    the action calls returns normally, a caller observes this of [Execute].
    When every node of the tree returns nil: every node run, then
    [completeHandle] once, [errHandle] never.  When a node returns an error
    after its predecessors in pre-order returned nil: those nodes and that
    node run, no later node, then [errHandle] once with that very error,
    [completeHandle] never. *)
Theorem Execute_forwards_first_error fe adm stage node completeHandle errHandle w :
  (forall w1,
     succeedAll (preorder node) w = Some w1 ->
     synchronous stage \/ acceptedReturning adm completeHandle w1 ->
     snd (observe fe adm stage node completeHandle errHandle w)
     = map okEvent (preorder node) ++ [EvComplete])
  /\ (forall pre id ex post w1 e w2,
       preorder node = pre ++ (id, ex) :: post ->
       succeedAll pre w = Some w1 -> ex w1 = (Ret (Some e), w2) ->
       synchronous stage \/ acceptedReturning adm (errHandle e) w2 ->
       snd (observe fe adm stage node completeHandle errHandle w)
       = map okEvent pre ++ [EvExec id (Ret (Some e)); EvError e]).
Proof.
  split.
  - intros w1 Hall Hpath. eapply observe_all_nil; eassumption.
  - intros pre id ex post w1 e w2 Hpre Hall Hex Hpath.
    eapply observe_first_error; eassumption.
Qed.

(** ** Frame *)

Lemma perform_stage stage (c : Call W) w : fst (fst (perform stage c w)) = stage.
Proof.
  destruct c as [|node completeHandle errHandle| |]; cbn; try reflexivity.
  - destruct (Execute stage node completeHandle errHandle w) as [[r w1] evs]. reflexivity.
Qed.

Lemma session_stage (cs : list (Call W)) :
  forall stage w, fst (fst (session stage cs w)) = stage.
Proof.
  induction cs as [|c cs IH]; intros stage w; cbn [session].
  - reflexivity.
  - pose proof (perform_stage stage c w) as Hc.
    destruct (perform stage c w) as [[stage1 w1] t1]. cbn in Hc. subst stage1.
    pose proof (IH stage w1) as Hrest.
    destruct (session stage cs w1) as [[stage2 w2] t2]. exact Hrest.
Qed.

Lemma In_EvExec_executed id r (tr : list Event) :
  In (EvExec id r) tr -> In id (executed tr).
Proof.
  induction tr as [|e tr IH]; cbn; [auto|].
  intros [->|Hin].
  - left. reflexivity.
  - apply in_or_app. right. apply IH, Hin.
Qed.

Lemma executed_specRun node completeHandle errHandle w :
  executed (snd (specRun node completeHandle errHandle w))
  = executed (snd (runSeq (preorder node) w)).
Proof.
  unfold specRun, bind.
  destruct (runSeq (preorder node) w) as [[[[e|]|v] w1] t1]; [| |reflexivity].
  - unfold callErr. destruct (errHandle e w1) as [r w2]. cbn [snd].
    rewrite executed_app. apply app_nil_r.
  - unfold callComplete. destruct (completeHandle w1) as [r w2]. cbn [snd].
    rewrite executed_app. apply app_nil_r.
Qed.

(** Only nodes of the tree are run, whatever the path. *)
Lemma observe_runs_tree fe adm stage node completeHandle errHandle w id :
  In id (executed (snd (observe fe adm stage node completeHandle errHandle w))) ->
  In id (ids node).
Proof.
  destruct (runSeq_prefix (preorder node) w) as [rest Hids].
  assert (Hrun : In id (executed (snd (specRun node completeHandle errHandle w))) ->
                 In id (ids node)).
  { rewrite executed_specRun. unfold ids. rewrite Hids. intros Hin.
    apply in_or_app. left. exact Hin. }
  destruct (sync_or_async stage) as [Hs|(p & c & Hp & Hc)].
  - rewrite (observe_sync _ _ _ _ _ _ _ Hs). exact Hrun.
  - rewrite (observe_async _ _ _ _ _ _ _ _ _ Hp Hc).
    destruct adm as [|e0].
    + rewrite Pool_run_accept_log. cbn [action]. rewrite executed_app.
      intros Hin. apply in_app_or in Hin. destruct Hin as [Hin|Hin]; [auto|].
      destruct (fst (fst (specRun node completeHandle errHandle w))); destruct Hin.
    + rewrite Pool_run_reject. cbn [onError]. unfold callErr.
      destruct (errHandle e0 w) as [r w1]. intros [].
Qed.

Lemma runSeq_quiet (l : list (nat * NodeExec W)) :
  Forall quietNode l -> forall w, snd (fst (runSeq l w)) = w.
Proof.
  induction 1 as [|[id ex] l Hq _ IH]; intros w; [reflexivity|].
  rewrite runSeq_unfold. specialize (Hq w). cbn [snd] in Hq.
  destruct (ex w) as [[[e|]|v] w1]; cbn [snd] in Hq; subst w1; try reflexivity.
  specialize (IH w). destruct (runSeq l w) as [[r w2] t]. exact IH.
Qed.

Lemma specRun_quiet node completeHandle errHandle w :
  Forall quietNode (preorder node) -> quietComplete completeHandle -> quietErr errHandle ->
  snd (fst (specRun node completeHandle errHandle w)) = w.
Proof.
  intros Hn Hch Heh. pose proof (runSeq_quiet _ Hn w) as Hw.
  unfold specRun, bind.
  destruct (runSeq (preorder node) w) as [[[[e|]|v] w1] t1]; cbn [fst snd] in Hw; subst w1.
  - unfold callErr. specialize (Heh e w). destruct (errHandle e w) as [r w2]. exact Heh.
  - unfold callComplete. specialize (Hch w). destruct (completeHandle w) as [r w2]. exact Hch.
  - reflexivity.
Qed.

(** The stage adds no effect of its own: with quiet nodes and quiet
    continuations the world is left as it was. *)
Lemma observe_quiet fe adm stage node completeHandle errHandle w :
  Forall quietNode (preorder node) -> quietComplete completeHandle -> quietErr errHandle ->
  fst (observe fe adm stage node completeHandle errHandle w) = w.
Proof.
  intros Hn Hch Heh.
  pose proof (specRun_quiet node completeHandle errHandle w Hn Hch Heh) as Hw.
  unfold observe.
  destruct (sync_or_async stage) as [Hs|(p & c & Hp & Hc)].
  - rewrite (Execute_sync _ _ _ _ _ Hs). unfold inline. rewrite execFn_specRun.
    destruct (specRun node completeHandle errHandle w) as [[r w1] t].
    rewrite settle_inline. exact Hw.
  - rewrite (Execute_async _ _ _ _ _ _ _ Hp Hc). cbn [settle].
    destruct adm as [|e0]; cbn [Pool_run action onError].
    + rewrite execFn_specRun.
      destruct (specRun node completeHandle errHandle w) as [[[a|v] w1] t];
        cbn [fst snd] in Hw; subst w1; [reflexivity|].
      unfold callErr. specialize (Heh (fe v) w).
      destruct (errHandle (fe v) w) as [r w2]. exact Heh.
    + unfold callErr. specialize (Heh e0 w).
      destruct (errHandle e0 w) as [r w2]. exact Heh.
Qed.

(** C9: [Type] returns the stored tag and is a function of the fields alone;
    after any sequence of calls of the five methods the fields of the stage
    are what they were; [Execute] runs the [Execute] of nodes of the tree it
    is given only, and adds no change of its own to the world. *)
Theorem baseStage_frame stage :
  Type_ stage = stageType stage
  /\ (forall (cs : list (Call W)) w, fst (fst (session stage cs w)) = stage)
  /\ (forall fe adm node completeHandle errHandle w id r,
        In (EvExec id r) (snd (observe fe adm stage node completeHandle errHandle w)) ->
        In id (ids node))
  /\ (forall fe adm node completeHandle errHandle w,
        Forall quietNode (preorder node) ->
        quietComplete completeHandle -> quietErr errHandle ->
        fst (observe fe adm stage node completeHandle errHandle w) = w).
Proof.
  split; [reflexivity|]. split; [|split].
  - intros cs w. apply session_stage.
  - intros fe adm node completeHandle errHandle w id r Hin.
    eapply observe_runs_tree, In_EvExec_executed, Hin.
  - intros. apply observe_quiet; assumption.
Qed.

(** ** Determinism *)

Lemma Execute_sync_specRun stage node completeHandle errHandle w :
  synchronous stage ->
  Execute stage node completeHandle errHandle w
  = inline (specRun node completeHandle errHandle) w.
Proof.
  intros Hs. rewrite (Execute_sync _ _ _ _ _ Hs). unfold inline.
  rewrite execFn_specRun. reflexivity.
Qed.

Lemma inlined_sync stage node completeHandle errHandle w :
  synchronous stage ->
  inlined (snd (Execute stage node completeHandle errHandle w))
  = snd (specRun node completeHandle errHandle w).
Proof.
  intros Hs. rewrite (Execute_sync_specRun _ _ _ _ _ Hs). unfold inline.
  destruct (specRun node completeHandle errHandle w) as [[r w1] t].
  apply inlined_inline.
Qed.

(** C10: on the synchronous path [Execute] is a function of the tree, the
    continuations and the world, the same for every stage and after every
    history of calls on the stage; and two runs in which the nodes return
    the same results in the same order call the same continuation with the
    same error. *)
Theorem Execute_sync_deterministic stage1 stage2 :
  synchronous stage1 -> synchronous stage2 ->
  (forall node completeHandle errHandle w,
     Execute stage1 node completeHandle errHandle w
     = Execute stage2 node completeHandle errHandle w)
  /\ (forall (history : list (Call W)) w0 node completeHandle errHandle,
        match session stage1 history w0 with
        | (stage, w, _) =>
            Execute stage node completeHandle errHandle w
            = inline (specRun node completeHandle errHandle) w
        end)
  /\ (forall node1 completeHandle1 errHandle1 w1 node2 completeHandle2 errHandle2 w2,
        results (inlined (snd (Execute stage1 node1 completeHandle1 errHandle1 w1)))
        = results (inlined (snd (Execute stage2 node2 completeHandle2 errHandle2 w2))) ->
        conts (inlined (snd (Execute stage1 node1 completeHandle1 errHandle1 w1)))
        = conts (inlined (snd (Execute stage2 node2 completeHandle2 errHandle2 w2)))).
Proof.
  intros Hs1 Hs2. split; [|split].
  - intros node completeHandle errHandle w.
    rewrite (Execute_sync_specRun _ _ _ _ _ Hs1), (Execute_sync_specRun _ _ _ _ _ Hs2).
    reflexivity.
  - intros history w0 node completeHandle errHandle.
    pose proof (session_stage history stage1 w0) as Hstage.
    destruct (session stage1 history w0) as [[stage w] t]. cbn in Hstage. subst stage.
    apply Execute_sync_specRun, Hs1.
  - intros node1 completeHandle1 errHandle1 w1 node2 completeHandle2 errHandle2 w2.
    rewrite (inlined_sync _ _ _ _ _ Hs1), (inlined_sync _ _ _ _ _ Hs2).
    rewrite !specRun_verdict. intros ->. reflexivity.
Qed.

(** ** Outcomes of the traversal *)

(** X1: [execute] returns nil exactly when every node of the tree, run in
    pre-order, returned nil; it has then run every node, in that order, and
    the world is the one the last node left. *)
Theorem execute_returns_nil_iff stage node w w1 tr :
  execute stage node w = (Ret None, w1, tr)
  <-> succeedAll (preorder node) w = Some w1 /\ tr = map okEvent (preorder node).
Proof.
  rewrite execute_runSeq. split.
  - intros Hrun.
    destruct (succeedAll_cases (preorder node) w)
      as [[w0 Hall]|(pre & id & ex & post & w0 & r & w2 & Hpre & Hall & Hex & Hr)].
    + rewrite (runSeq_all_nil _ _ _ Hall) in Hrun.
      injection Hrun as <- <-. split; [exact Hall | reflexivity].
    + rewrite Hpre, (runSeq_stop pre post id ex w w0 r w2 Hall Hex Hr) in Hrun.
      injection Hrun as -> _ _. contradiction.
  - intros [Hall ->]. apply runSeq_all_nil, Hall.
Qed.

(** X2: [execute] ends with an error or a panic exactly when some node, all
    of whose predecessors in pre-order returned nil, ended so; the result of
    [execute] is the result of that node, unchanged, and that node is the
    last one run. *)
Theorem execute_stops_iff stage node w r w2 tr :
  r <> Ret None ->
  (execute stage node w = (r, w2, tr)
   <-> exists pre id ex post w1,
         preorder node = pre ++ (id, ex) :: post /\
         succeedAll pre w = Some w1 /\ ex w1 = (r, w2) /\
         tr = map okEvent pre ++ [EvExec id r]).
Proof.
  intros Hr. rewrite execute_runSeq. split.
  - intros Hrun.
    destruct (succeedAll_cases (preorder node) w)
      as [[w0 Hall]|(pre & id & ex & post & w0 & r0 & w3 & Hpre & Hall & Hex & Hr0)].
    + rewrite (runSeq_all_nil _ _ _ Hall) in Hrun.
      injection Hrun as <- _ _. contradiction.
    + rewrite Hpre, (runSeq_stop pre post id ex w w0 r0 w3 Hall Hex Hr0) in Hrun.
      injection Hrun as -> -> <-.
      exists pre, id, ex, post, w0. repeat split; assumption.
  - intros (pre & id & ex & post & w1 & Hpre & Hall & Hex & ->).
    rewrite Hpre. apply (runSeq_stop pre post id ex w w1 r w2 Hall Hex Hr).
Qed.

(** X3: on the synchronous path [Execute] panics exactly when a node panics
    (then no continuation is called) or when the one continuation it calls
    panics (then the other one is not called); the panic reaches the caller
    with its value unchanged. *)
Theorem Execute_sync_panics_iff stage node completeHandle errHandle w v w' evs :
  synchronous stage ->
  (Execute stage node completeHandle errHandle w = (Panic v, w', evs)
   <-> (exists pre id ex post w1,
          preorder node = pre ++ (id, ex) :: post /\
          succeedAll pre w = Some w1 /\ ex w1 = (Panic v, w') /\
          evs = map (@Inline W) (map okEvent pre ++ [EvExec id (Panic v)]))
       \/ (exists w1,
             succeedAll (preorder node) w = Some w1 /\
             completeHandle w1 = (Panic v, w') /\
             evs = map (@Inline W) (map okEvent (preorder node) ++ [EvComplete]))
       \/ (exists pre id ex post w1 e w2,
             preorder node = pre ++ (id, ex) :: post /\
             succeedAll pre w = Some w1 /\ ex w1 = (Ret (Some e), w2) /\
             errHandle e w2 = (Panic v, w') /\
             evs = map (@Inline W)
                     (map okEvent pre ++ [EvExec id (Ret (Some e)); EvError e]))).
Proof.
  intros Hs. rewrite (Execute_sync_specRun _ _ _ _ _ Hs). unfold inline. split.
  - intros Hrun.
    destruct (specRun_cases node completeHandle errHandle w)
      as [(w1 & Hall & Heq)
         |[(pre & id & ex & post & w1 & e & w2 & Hpre & Hall & Hex & Heq)
          |(pre & id & ex & post & w1 & v0 & w2 & Hpre & Hall & Hex & Heq)]];
      rewrite Heq in Hrun.
    + right; left. exists w1.
      destruct (completeHandle w1) as [r w3]. injection Hrun as -> -> <-.
      repeat split; auto.
    + right; right. exists pre, id, ex, post, w1, e, w2.
      destruct (errHandle e w2) as [r w3]. injection Hrun as -> -> <-.
      repeat split; auto.
    + left. exists pre, id, ex, post, w1.
      injection Hrun as -> -> <-. repeat split; auto.
  - intros [(pre & id & ex & post & w1 & Hpre & Hall & Hex & ->)
           |[(w1 & Hall & Hch & ->)
            |(pre & id & ex & post & w1 & e & w2 & Hpre & Hall & Hex & Heh & ->)]].
    + rewrite (specRun_panic node completeHandle errHandle pre id ex post w w1 v w'
                 Hpre Hall Hex). reflexivity.
    + rewrite (specRun_all_nil node completeHandle errHandle w w1 Hall), Hch.
      reflexivity.
    + rewrite (specRun_error node completeHandle errHandle pre id ex post w w1 e w2
                 Hpre Hall Hex), Heh. reflexivity.
Qed.

(** ** Composition and shape *)

(** X5: running a list of children is running a first part of it and, when
    that returned nil, the rest from the world reached; an error or a panic
    of the first part ends the run. *)
Theorem executeChildren_app stage (cs1 cs2 : list (PlanNode W)) w :
  executeChildren stage (cs1 ++ cs2) w
  = bind (executeChildren stage cs1) (andThen (executeChildren stage cs2)) w.
Proof.
  rewrite executeChildren_runSeq, flat_map_app, runSeq_app.
  unfold bind. rewrite executeChildren_runSeq.
  destruct (runSeq (flat_map preorder cs1) w) as [[[[e|]|v] w1] t1];
    cbn [andThen]; try reflexivity.
  rewrite executeChildren_runSeq. reflexivity.
Qed.

(** X6: the traversal sees the pre-order sequence of a tree only: two trees
    with the same nodes in the same pre-order, however nested, and whatever
    the stage, are run alike by [execute] and by the closure of [Execute]. *)
Theorem execute_shape_irrelevant stage1 stage2 node1 node2 completeHandle errHandle w :
  preorder node1 = preorder node2 ->
  execute stage1 node1 w = execute stage2 node2 w
  /\ execFn stage1 node1 completeHandle errHandle w
     = execFn stage2 node2 completeHandle errHandle w.
Proof.
  intros Hpre. split.
  - rewrite !execute_runSeq, Hpre. reflexivity.
  - rewrite !execFn_specRun. unfold specRun. rewrite Hpre. reflexivity.
Qed.

End Properties.

(** * The properties at the sample inputs *)

Open Scope string_scope.
Open Scope list_scope.

(** The scenario A -> [B, C] of the spec: A runs, B runs and fails, C is
    not run, and the error of B comes back. *)
Example execute_treeABC :
  execute syncStage treeABC 0
  = (Ret (Some "B failed"), 2, [EvExec 1 (Ret None); EvExec 2 (Ret (Some "B failed"))]).
Proof. reflexivity. Qed.

Example execute_treeOk :
  execute syncStage treeOk 0
  = (Ret None, 4,
     [EvExec 1 (Ret None); EvExec 2 (Ret None); EvExec 3 (Ret None); EvExec 4 (Ret None)]).
Proof. reflexivity. Qed.

Example Execute_sync_treeOk :
  Execute syncStage treeOk onComplete onErr 0
  = (Ret tt, 104,
     [Inline (EvExec 1 (Ret None)); Inline (EvExec 2 (Ret None));
      Inline (EvExec 3 (Ret None)); Inline (EvExec 4 (Ret None)); Inline EvComplete]).
Proof. reflexivity. Qed.

Example Execute_async_returns_at_once :
  Execute asyncStage treeOk onComplete onErr 0
  = (Ret tt, 0, [Submitted 3 7 (NewTask (execFn asyncStage treeOk onComplete onErr) onErr)]).
Proof. reflexivity. Qed.

Lemma execute_preorder_witness :
  execute syncStage (Node 2 (failNode "B failed") [Node 3 okNode []]) 0
  = (Ret (Some "B failed"), 1, [EvExec 2 (Ret (Some "B failed"))])
  /\ executeChildren syncStage
       ([Node 1 okNode []] ++ Node 2 (failNode "B failed") [] :: [Node 3 okNode []]) 0
     = (Ret (Some "B failed"), 2,
        [EvExec 1 (Ret None)] ++ [EvExec 2 (Ret (Some "B failed"))]).
Proof.
  destruct (execute_preorder syncStage treeABC 0) as [_ [_ [Hown Hchild]]].
  split.
  - exact (Hown 2 (failNode "B failed") [Node 3 okNode []] "B failed" 1 eq_refl).
  - exact (Hchild [Node 1 okNode []] (Node 2 (failNode "B failed") []) [Node 3 okNode []]
             1 [EvExec 1 (Ret None)] "B failed" 2 [EvExec 2 (Ret (Some "B failed"))]
             eq_refl eq_refl).
Defined.

(** C1 fails as stated.  On the synchronous path a node that panics takes
    [Execute] down with it and no continuation is called; on the
    asynchronous path a [completeHandle] that panics inside the action is
    followed by the pool's call of [errHandle], so both are called. *)
Lemma Execute_not_always_one :
  Execute syncStage treePanic onComplete onErr 0
  = (Panic "boom", 0, [Inline (EvExec 1 (Panic "boom"))])
  /\ List.length (conts (snd (observe sampleFaultError Accept syncStage treePanic onComplete onErr 0))) = 0
  /\ conts (snd (observe sampleFaultError Accept asyncStage treeOk onCompleteFaulty onErr 0))
     = [EvComplete; EvError "panic: complete"]
  /\ List.length (conts (snd (observe sampleFaultError Accept asyncStage treeOk onCompleteFaulty onErr 0))) = 2.
Proof. repeat split. Qed.

Lemma synchronous_syncStage : synchronous syncStage.
Proof. left. reflexivity. Defined.

Lemma synchronous_noPoolStage : synchronous noPoolStage.
Proof. left. reflexivity. Defined.

Lemma asynchronous_asyncStage : ~ synchronous asyncStage.
Proof. intros [H|H]; discriminate H. Defined.

Lemma Execute_exactly_one_witness :
  List.length (conts (snd (observe sampleFaultError Accept syncStage treeABC onCompleteFaulty onErr 0))) = 1
  /\ List.length (conts (snd (observe sampleFaultError Accept asyncStage treePanic onComplete onErr 0))) = 1
  /\ List.length (conts (snd (observe sampleFaultError (Reject "cancelled") asyncStage treeOk onComplete onErr 0))) = 1.
Proof.
  split; [|split].
  - apply (Execute_exactly_one sampleFaultError Accept syncStage treeABC onCompleteFaulty onErr 0).
    + intros _ v w1 tr. vm_compute. discriminate.
    + intros Hn. exfalso. exact (Hn synchronous_syncStage).
  - apply (Execute_exactly_one sampleFaultError Accept asyncStage treePanic onComplete onErr 0).
    + intros Hs. exfalso. exact (asynchronous_asyncStage Hs).
    + intros _. split.
      * intros w. exists (w + 100). reflexivity.
      * intros e w. exists (w + 1000). reflexivity.
  - apply (Execute_exactly_one sampleFaultError (Reject "cancelled") asyncStage treeOk onComplete onErr 0).
    + intros Hs. exfalso. exact (asynchronous_asyncStage Hs).
    + intros _. split.
      * intros w. exists (w + 100). reflexivity.
      * intros e w. exists (w + 1000). reflexivity.
Defined.

(** C2 fails as stated on the asynchronous path.  Every node of [treeOk]
    returns nil, yet a [completeHandle] that panics inside the action is
    followed by [errHandle], and a task the pool rejects has [errHandle]
    called and no node run; the error of B is followed by a second call of
    [errHandle], with an error no node returned, when [errHandle] panics. *)
Lemma Execute_forwarding_fails_with_pool :
  succeedAll (preorder treeOk) 0 = Some 4
  /\ snd (observe sampleFaultError Accept asyncStage treeOk onCompleteFaulty onErr 0)
     = [EvExec 1 (Ret None); EvExec 2 (Ret None); EvExec 3 (Ret None);
        EvExec 4 (Ret None); EvComplete; EvError "panic: complete"]
  /\ snd (observe sampleFaultError (Reject "cancelled") asyncStage treeOk onComplete onErr 0)
     = [EvError "cancelled"]
  /\ snd (observe sampleFaultError Accept asyncStage treeABC onComplete onErrFaulty 0)
     = [EvExec 1 (Ret None); EvExec 2 (Ret (Some "B failed"));
        EvError "B failed"; EvError "panic: eh"].
Proof. repeat split. Qed.

Lemma Execute_forwards_first_error_witness :
  snd (observe sampleFaultError (Reject "cancelled") syncStage treeABC onComplete onErr 0)
  = [EvExec 1 (Ret None); EvExec 2 (Ret (Some "B failed")); EvError "B failed"]
  /\ snd (observe sampleFaultError Accept syncStage treeOk onCompleteFaulty onErr 0)
     = [EvExec 1 (Ret None); EvExec 2 (Ret None); EvExec 3 (Ret None);
        EvExec 4 (Ret None); EvComplete]
  /\ snd (observe sampleFaultError Accept asyncStage treeABC onComplete onErr 0)
     = [EvExec 1 (Ret None); EvExec 2 (Ret (Some "B failed")); EvError "B failed"]
  /\ snd (observe sampleFaultError Accept asyncStage treeOk onComplete onErr 0)
     = [EvExec 1 (Ret None); EvExec 2 (Ret None); EvExec 3 (Ret None);
        EvExec 4 (Ret None); EvComplete].
Proof.
  split; [|split; [|split]].
  - destruct (Execute_forwards_first_error sampleFaultError (Reject "cancelled")
                syncStage treeABC onComplete onErr 0) as [_ Herr].
    exact (Herr [(1, okNode)] 2 (failNode "B failed") [(3, okNode)] 1 "B failed" 2
             eq_refl eq_refl eq_refl (or_introl synchronous_syncStage)).
  - destruct (Execute_forwards_first_error sampleFaultError Accept
                syncStage treeOk onCompleteFaulty onErr 0) as [Hok _].
    exact (Hok 4 eq_refl (or_introl synchronous_syncStage)).
  - destruct (Execute_forwards_first_error sampleFaultError Accept
                asyncStage treeABC onComplete onErr 0) as [_ Herr].
    exact (Herr [(1, okNode)] 2 (failNode "B failed") [(3, okNode)] 1 "B failed" 2
             eq_refl eq_refl eq_refl
             (or_intror (conj eq_refl (ex_intro _ 1002 eq_refl)))).
  - destruct (Execute_forwards_first_error sampleFaultError Accept
                asyncStage treeOk onComplete onErr 0) as [Hok _].
    exact (Hok 4 eq_refl (or_intror (conj eq_refl (ex_intro _ 104 eq_refl)))).
Defined.

(** C5 fails as stated on the asynchronous path: with a nil node, a task the
    pool rejects has [errHandle] called and not [completeHandle], and a
    [completeHandle] that panics inside the action is followed by
    [errHandle]. *)
Lemma Execute_nil_fails_with_pool :
  snd (observe sampleFaultError (Reject "cancelled") asyncStage (@nilNode nat) onComplete onErr 0)
  = [EvError "cancelled"]
  /\ snd (observe sampleFaultError Accept asyncStage (@nilNode nat) onCompleteFaulty onErr 0)
     = [EvComplete; EvError "panic: complete"].
Proof. split; reflexivity. Qed.

Lemma execute_nil_witness :
  snd (observe sampleFaultError (Reject "cancelled") noPoolStage (@nilNode nat)
         onCompleteFaulty onErr 0)
  = [EvComplete]
  /\ snd (observe sampleFaultError Accept asyncStage (@nilNode nat) onComplete onErr 0)
     = [EvComplete].
Proof.
  split.
  - destruct (execute_nil noPoolStage onCompleteFaulty onErr 0) as [_ [_ [_ [Hobs _]]]].
    exact (Hobs sampleFaultError (Reject "cancelled") (or_introl synchronous_noPoolStage)).
  - destruct (execute_nil asyncStage onComplete onErr 0) as [_ [_ [_ [Hobs _]]]].
    exact (Hobs sampleFaultError Accept
             (or_intror (conj eq_refl (ex_intro _ 100 eq_refl)))).
Defined.

Lemma Execute_sync_iff_witness :
  (forall w1 evs,
     Execute noPoolStage treeABC onComplete onErr 0 = (Ret tt, w1, evs) ->
     submitted evs = [] /\ List.length (conts (inlined evs)) = 1)
  /\ Execute asyncStage treeABC onComplete onErr 0
     = (Ret tt, 0, [Submitted 3 7 (NewTask (execFn asyncStage treeABC onComplete onErr) onErr)]).
Proof.
  split.
  - destruct (Execute_sync_iff noPoolStage treeABC onComplete onErr 0) as [_ [Hsync _]].
    exact (Hsync (or_introl eq_refl)).
  - destruct (Execute_sync_iff asyncStage treeABC onComplete onErr 0) as [_ [_ Hasync]].
    destruct (Hasync 3 7 eq_refl eq_refl) as [Hsub _]. exact Hsub.
Defined.

Lemma NoDup_ids_treeOk : NoDup (ids treeOk).
Proof.
  repeat constructor; cbn; intros H;
    repeat (destruct H as [H|H]; [discriminate H|]); exact H.
Defined.

Lemma execute_visits_once_witness :
  NoDup (ids treeOk)
  /\ exists r w1 tr,
       execute syncStage treeOk 0 = (r, w1, tr)
       /\ NoDup (executed tr)
       /\ forall pre id ex post w0,
            preorder treeOk = pre ++ (id, ex) :: post ->
            succeedAll pre 0 = Some w0 ->
            count_occ Nat.eq_dec (executed tr) id = 1.
Proof.
  split.
  - exact NoDup_ids_treeOk.
  - exact (execute_visits_once syncStage treeOk 0 NoDup_ids_treeOk).
Defined.

Lemma Execute_installs_errHandle_witness :
  exists t,
    Execute asyncStage treeABC onComplete onErr 0 = (Ret tt, 0, [Submitted 3 7 t])
    /\ onError t = onErr
    /\ (forall fe e w1, Pool_run fe (Reject e) t w1 = callErr onErr e w1)
    /\ (forall fe v w1 w2 tr,
          action t w1 = (Panic v, w2, tr) ->
          Pool_run fe Accept t w1
          = match callErr onErr (fe v) w2 with
            | (r, w3, t3) => (r, w3, tr ++ t3)
            end)
    /\ (forall e w1 w2 tr,
          execute asyncStage treeABC w1 = (Ret (Some e), w2, tr) ->
          action t w1
          = match callErr onErr e w2 with
            | (r, w3, t3) => (r, w3, tr ++ t3)
            end).
Proof.
  exact (Execute_installs_errHandle asyncStage treeABC onComplete onErr 0 3 7
           eq_refl eq_refl).
Defined.

Lemma quiet_treeQuiet : Forall quietNode (preorder treeQuiet).
Proof. repeat constructor. Defined.

Lemma baseStage_frame_witness :
  fst (fst (session asyncStage
              [CallExecute treeABC onComplete onErr; CallType; CallComplete;
               CallNextStages; CallExecute treePanic onCompleteFaulty onErr] 0))
  = asyncStage
  /\ (In (EvExec 6 (Ret (Some "B failed")))
         (snd (observe sampleFaultError Accept syncStage treeQuiet onCompleteQuiet onErrQuiet 0)) ->
      In 6 (ids treeQuiet))
  /\ fst (observe sampleFaultError Accept syncStage treeQuiet onCompleteQuiet onErrQuiet 0) = 0.
Proof.
  split; [|split].
  - destruct (baseStage_frame (W:=nat) asyncStage) as [_ [Hsession _]].
    apply Hsession.
  - destruct (baseStage_frame (W:=nat) syncStage) as [_ [_ [Hruns _]]].
    apply Hruns.
  - destruct (baseStage_frame (W:=nat) syncStage) as [_ [_ [_ Hquiet]]].
    apply Hquiet.
    + exact quiet_treeQuiet.
    + intros w. reflexivity.
    + intros e w. reflexivity.
Defined.

Lemma Execute_sync_deterministic_witness :
  Execute syncStage treeABC onComplete onErr 0
  = Execute noPoolStage treeABC onComplete onErr 0
  /\ conts (inlined (snd (Execute syncStage treeABC onComplete onErr 0)))
     = conts (inlined (snd (Execute noPoolStage treeQuiet onCompleteQuiet onErrQuiet 9))).
Proof.
  destruct (Execute_sync_deterministic (W:=nat) syncStage noPoolStage
              synchronous_syncStage synchronous_noPoolStage) as [Hsame [_ Hresults]].
  split.
  - apply Hsame.
  - apply Hresults. reflexivity.
Defined.

(** ** Outcomes, composition and shape at the sample inputs *)

Lemma execute_returns_nil_iff_witness :
  execute syncStage treeOk 0
  = (Ret None, 4,
     [EvExec 1 (Ret None); EvExec 2 (Ret None); EvExec 3 (Ret None); EvExec 4 (Ret None)])
  /\ (forall w1 tr, execute syncStage treeABC 0 = (Ret None, w1, tr) -> False).
Proof.
  split.
  - apply (proj2 (execute_returns_nil_iff syncStage treeOk 0 4 _)).
    split; reflexivity.
  - intros w1 tr Hrun.
    destruct (proj1 (execute_returns_nil_iff syncStage treeABC 0 w1 tr) Hrun) as [Hall _].
    discriminate Hall.
Defined.

Lemma execute_stops_iff_witness :
  exists pre id ex post w1,
    preorder treeABC = pre ++ (id, ex) :: post /\
    succeedAll pre 0 = Some w1 /\ ex w1 = (Ret (Some "B failed"), 2) /\
    [EvExec 1 (Ret None); EvExec 2 (Ret (Some "B failed"))]
    = map okEvent pre ++ [EvExec id (Ret (Some "B failed"))].
Proof.
  apply (proj1 (execute_stops_iff syncStage treeABC 0 (Ret (Some "B failed")) 2
                  [EvExec 1 (Ret None); EvExec 2 (Ret (Some "B failed"))]
                  ltac:(discriminate))).
  reflexivity.
Defined.

Lemma Execute_sync_panics_iff_witness :
  Execute syncStage treeOk onCompleteFaulty onErr 0
  = (Panic "complete", 104,
     map (@Inline nat) (map okEvent (preorder treeOk) ++ [EvComplete]))
  /\ Execute noPoolStage treePanic onComplete onErr 0
     = (Panic "boom", 0, map (@Inline nat) (map (@okEvent nat) [] ++ [EvExec 1 (Panic "boom")])).
Proof.
  split.
  - apply (proj2 (Execute_sync_panics_iff syncStage treeOk onCompleteFaulty onErr 0
                    "complete" 104 _ synchronous_syncStage)).
    right; left. exists 4. repeat split.
  - apply (proj2 (Execute_sync_panics_iff noPoolStage treePanic onComplete onErr 0
                    "boom" 0 _ synchronous_noPoolStage)).
    left. exists [], 1, (panicNode "boom"), [], 0. repeat split.
Defined.

Lemma Execute_sync_at_most_one_witness :
  List.length
    (conts (snd (observe sampleFaultError Accept noPoolStage treeOk onCompleteFaulty onErr 0)))
  <= 1.
Proof.
  exact (Execute_sync_at_most_one sampleFaultError Accept noPoolStage treeOk
           onCompleteFaulty onErr 0 synchronous_noPoolStage).
Defined.

Lemma execute_shape_irrelevant_witness :
  preorder treeABC = preorder treeChain
  /\ execute syncStage treeABC 0 = execute asyncStage treeChain 0
  /\ execFn syncStage treeABC onComplete onErr 0
     = execFn asyncStage treeChain onComplete onErr 0.
Proof.
  split; [reflexivity|].
  exact (execute_shape_irrelevant syncStage asyncStage treeABC treeChain
           onComplete onErr 0 eq_refl).
Defined.
